(** * make_img.py: a Life-like automaton on a toroidal grid

    A shallow embedding of [make_img.py] and the properties of its
    stepping function, its pattern seeding, its command line and its
    frame loop.

    The program works on two-dimensional numpy arrays of 64-bit
    integers.  An array is a list of rows, a failed index (numpy's
    [IndexError]) is [None], and the module-level variables the program
    mutates ([grid], the image artist [im]) are fields of an explicit
    state record. *)

From Stdlib Require Import ZArith Lia Ascii String.
From stdpp Require Import base tactics option list strings.

Local Open Scope Z_scope.

(** ** The numpy operations used by the program *)

Module Np.

Abbreviation array2 := (list (list Z)).

(** The shape a rectangular array has: [H] rows of [W] entries. *)
Definition shape (H W : nat) (a : array2) : Prop :=
  length a = H ∧ Forall (λ row, length row = W) a.

(** Entry [(r, c)] by plain (non-negative, unchecked) position. *)
Definition cell (a : array2) (r c : nat) : option Z :=
  a !! r ≫= λ row, row !! c.

(** int64 arithmetic wraps around silently. *)
Definition wrap64 (z : Z) : Z := (z + 2 ^ 63) `mod` 2 ^ 64 - 2 ^ 63.
Definition add64 (x y : Z) : Z := wrap64 (x + y).

(** [a + b] on arrays of one shape. *)
Definition add (a b : array2) : array2 := zip_with (zip_with add64) a b.

(** [np.roll] along one axis of length [n]: the shift is reduced
    modulo [n] to an offset, the last [offset] entries come first and
    the others follow.  An empty axis is left alone. *)
Definition roll_axis {A} (shift : Z) (l : list A) : list A :=
  let n := length l in
  if decide (n = 0%nat) then l
  else let offset := Z.to_nat (shift `mod` Z.of_nat n) in
       drop (n - offset) l ++ take (n - offset) l.

Inductive axis := Axis0 | Axis1.

Definition roll (a : array2) (shift : Z) (ax : axis) : array2 :=
  match ax with
  | Axis0 => roll_axis shift a
  | Axis1 => roll_axis shift <$> a
  end.

(** An integer index [i] into an axis of length [n]: [-n <= i < 0]
    counts from the end, anything outside [-n <= i < n] is an
    [IndexError]. *)
Definition norm_index (n : nat) (i : Z) : option nat :=
  if decide (0 <= i < Z.of_nat n) then Some (Z.to_nat i)
  else if decide (- Z.of_nat n <= i < 0) then Some (Z.to_nat (i + Z.of_nat n))
  else None.

(** [t[i, j]] *)
Definition item2 (t : array2) (i j : Z) : option Z :=
  r ← norm_index (length t) i;
  row ← t !! r;
  c ← norm_index (length row) j;
  row !! c.

(** [t[a, b]] for two index arrays of one shape: entry by entry. *)
Definition take2 (t a b : array2) : option array2 :=
  mapM (λ rows, mapM (λ ij, item2 t ij.1 ij.2) (zip rows.1 rows.2)) (zip a b).

(** [g[i, j] = v], in place. *)
Definition setitem2 (g : array2) (i j v : Z) : option array2 :=
  r ← norm_index (length g) i;
  row ← g !! r;
  c ← norm_index (length row) j;
  Some (<[r := <[c := v]> row]> g).

(** An [H] by [W] array of zeros. *)
Definition zeros (H W : nat) : array2 := replicate H (replicate W 0).

End Np.

Import Np.

Infix "⊞" := Np.add (at level 50, left associativity).

(** ** The program *)

Definition GRID_SIZE : nat := 100.

Definition valid_patterns : list string := ["SHUTTLES"; "BRAIN"]%string.

(** rules for Conway's Game of Life: row = current state, column =
    number of live neighbours. *)
Definition rules : array2 :=
  [ [0;0;0;1;0;0;0;0;0];
    [0;0;1;1;0;0;0;0;0] ].

(** The neighbour count of [animate_life], for every cell at once. *)
Definition num_neighbors (grid : array2) : array2 :=
  let von_neumann_neighbors :=
    roll grid 1 Axis0 ⊞ roll grid (-1) Axis0 ⊞
    roll grid 1 Axis1 ⊞ roll grid (-1) Axis1 in
  let diag_neighbors :=
    roll (roll grid 1 Axis0) 1 Axis1 ⊞ roll (roll grid 1 Axis0) (-1) Axis1 ⊞
    roll (roll grid (-1) Axis0) 1 Axis1 ⊞ roll (roll grid (-1) Axis0) (-1) Axis1 in
  von_neumann_neighbors ⊞ diag_neighbors.

(** [rules[grid, num_neighbors]] for an arbitrary two-row table. *)
Definition step_with (table grid : array2) : option array2 :=
  take2 table grid (num_neighbors grid).

Definition step (grid : array2) : option array2 := step_with rules grid.

(** The module-level state: the grid, the data last handed to the image
    artist, and two records kept for the proofs: the arguments
    [animate_life] was called with, in order, and the images the writer
    grabbed, in order. *)
Record world := World {
  grid : array2;
  im : array2;
  calls : list Z;
  grabbed : list array2
}.

(** [animate_life(n)]: step the global grid, then show it. *)
Definition animate_life (n : Z) (w : world) : option world :=
  g ← step (grid w);
  Some {| grid := g; im := g; calls := calls w ++ [n]; grabbed := grabbed w |}.

Definition shuttle_cells : list (Z * Z) :=
  [(48,33);(48,34);(49,33);(49,34);(53,38);(53,39);(53,40);
   (48,66);(48,67);(49,66);(49,67);(53,60);(53,61);(53,62);
   (54,49);(53,49);(52,49);(52,50);(52,51);(53,51);(54,51)].

Definition brain_cells : list (Z * Z) :=
  [(45,43);(45,44);(45,45);(45,55);(45,56);(45,57);
   (46,42);(46,44);(46,46);(46,47);(46,53);(46,54);(46,56);(46,58);
   (47,42);(47,44);(47,46);(47,54);(47,56);(47,58);
   (48,43);(48,45);(48,46);(48,48);(48,49);(48,51);(48,52);(48,54);(48,55);(48,57);
   (49,47);(49,49);(49,51);(49,53);
   (50,45);(50,47);(50,49);(50,51);(50,53);(50,55);
   (51,44);(51,45);(51,47);(51,49);(51,51);(51,53);(51,55);(51,56);
   (52,44);(52,45);(52,46);(52,49);(52,51);(52,54);(52,55);(52,56);
   (53,44);(53,45);(53,48);(53,52);(53,55);(53,56);
   (54,43);(54,48);(54,49);(54,51);(54,52);(54,57);
   (55,43);(55,57)].

(** The loop [for i,j in init_cells: grid[i, j] = 1]. *)
Fixpoint bake (init_cells : list (Z * Z)) (grid : array2) : option array2 :=
  match init_cells with
  | [] => Some grid
  | (i, j) :: rest => g ← setitem2 grid i j 1; bake rest g
  end.

(** *** The frame loop

    [animation.FuncAnimation(fig, animate_life, frames=frames,
    interval=88, blit=True)] followed by [anim.save(outfile, ...)], as
    matplotlib runs them with no [init_func] and on its non-interactive
    canvas, where a requested draw is done at once:
    - an initial draw calls the function on the first frame number of
      [range(frames)], when there is one;
    - with [blit=True] the constructor sets blitting up: it draws the
      figure, which starts the animation with an initial draw, and then
      makes the initial draw once more;
    - saving makes an initial draw, then walks [range(frames)], calling
      the function and grabbing the figure after each call, and leaves
      the file to the writer; the writer raises when it has no frame,
      and whenever it or the file system fails, which is for the
      surroundings to say ([writer_ok]).
    [None] is a run that raises. *)

Definition grab_frame (w : world) : world :=
  {| grid := grid w; im := im w; calls := calls w;
     grabbed := grabbed w ++ [im w] |}.

Definition init_draw (frames : nat) (w : world) : option world :=
  match frames with
  | O => Some w
  | S _ => animate_life 0 w
  end.

Fixpoint draw_frames (ns : list Z) (w : world) : option world :=
  match ns with
  | [] => Some w
  | n :: rest => w' ← animate_life n w; draw_frames rest (grab_frame w')
  end.

Definition range (n : nat) : list Z := Z.of_nat <$> seq 0 n.

(** The constructor, with [blit=True]. *)
Definition FuncAnimation (frames : nat) (w : world) : option world :=
  w1 ← init_draw frames w; init_draw frames w1.

(** [anim.save]. *)
Definition save (writer_ok : bool) (frames : nat) (w : world) : option world :=
  w0 ← init_draw frames w;
  w1 ← draw_frames (range frames) w0;
  match frames with
  | O => None
  | S _ => if writer_ok then Some w1 else None
  end.

(** make and save the animation *)
Definition make_and_save (writer_ok : bool) (frames : nat) (w : world) : option world :=
  anim ← FuncAnimation frames w; save writer_ok frames anim.

(** *** The command line *)

Definition upper_ascii (c : ascii) : ascii :=
  let n := nat_of_ascii c in
  if (97 <=? n)%nat && (n <=? 122)%nat then ascii_of_nat (n - 32) else c.

(** The upper case of a string of ASCII characters, which is what
    [str.upper] gives on such a string. *)
Fixpoint ascii_upper (s : string) : string :=
  match s with
  | EmptyString => EmptyString
  | String c s' => String (upper_ascii c) (ascii_upper s')
  end.

Fixpoint is_ascii (s : string) : Prop :=
  match s with
  | EmptyString => True
  | String c s' => (nat_of_ascii c < 128)%nat ∧ is_ascii s'
  end.

(** What [print] shows for a list of plain names. *)
Definition repr_str (s : string) : string := ("'" +:+ s +:+ "'")%string.

Fixpoint join (sep : string) (l : list string) : string :=
  match l with
  | [] => EmptyString
  | [s] => s
  | s :: rest => (s +:+ sep +:+ join sep rest)%string
  end.

Definition repr_list (l : list string) : string :=
  ("[" +:+ join ", " (repr_str <$> l) +:+ "]")%string.

Inductive exn :=
  | IndexError
  | SystemExit (code : option Z).

(** A finished run: what was printed, the module state (when the
    program got as far as creating it), the files written with their
    frames, and the exception that ended the run, if any. *)
Record process := Process {
  stdout : list string;
  state : option world;
  files : list (string * list array2);
  raised : option exn
}.

(** The status the operating system gets: [sys.exit()] with no argument
    is a [SystemExit(None)], which is status 0; an uncaught error is
    status 1. *)
Definition exit_status (p : process) : Z :=
  match raised p with
  | None => 0
  | Some (SystemExit None) => 0
  | Some (SystemExit (Some c)) => Z.land c 255
  | Some IndexError => 1
  end.

Definition usage_exit : process :=
  {| stdout := ["Please provide a pattern from the list below as an argument:"%string;
                repr_list valid_patterns];
     state := None; files := []; raised := Some (SystemExit None) |}.

(** Lines 13 to 22.  [str.upper] follows Unicode, which is not
    modelled here: [upper] is a parameter and may be any function.
    The rest of the program, which is run only when the arguments
    pass and is handed the pattern, is a parameter too. *)
Section command_line.

Variable upper : string → string.
Variable rest : string → process.

Definition main (args : list string) : process :=
  if decide (length args ≠ 2%nat) then usage_exit
  else if decide (upper (nth 1 args EmptyString) ∉ valid_patterns) then usage_exit
  else
    let PATTERN := upper (nth 1 args EmptyString) in
    rest PATTERN.

End command_line.

(** A rest of the program that ends at once. *)
Definition ends_at_once (PATTERN : string) : process :=
  {| stdout := []; state := None; files := []; raised := None |}.


(** ** The reference the specification describes

    These definitions follow the specification's wording, not the
    program: a rule as a condition on the neighbour count, a neighbour
    count as a sum over the eight Moore neighbours with indices taken
    modulo the dimensions, and a synchronous step that reads only the
    grid before the step. *)

Module Ref.

(** DEAD becomes ALIVE iff the count is 3; ALIVE stays ALIVE iff the
    count is 2 or 3. *)
Definition next_state (current n : Z) : Z :=
  if decide (current = 0) then (if decide (n = 3) then 1 else 0)
  else (if decide (n = 2 ∨ n = 3) then 1 else 0).

Definition moore_offsets : list (Z * Z) :=
  [(-1,-1); (-1,0); (-1,1); (0,-1); (0,1); (1,-1); (1,0); (1,1)].

(** The eight neighbours of [(r, c)] on an [H] by [W] torus. *)
Definition moore_cells (H W : nat) (r c : nat) : list (nat * nat) :=
  (λ d, (Z.to_nat ((Z.of_nat r + d.1) `mod` Z.of_nat H),
         Z.to_nat ((Z.of_nat c + d.2) `mod` Z.of_nat W))) <$> moore_offsets.

(** A cell counts 1 if ALIVE, else 0. *)
Definition get (g : array2) (p : nat * nat) : Z :=
  default 0 (cell g p.1 p.2).

Definition sum (l : list Z) : Z := foldr Z.add 0 l.

Definition neighbor_count (H W : nat) (g : array2) (r c : nat) : Z :=
  sum (get g <$> moore_cells H W r c).

(** Every cell from the grid before the step. *)
Definition sync_step (H W : nat) (g : array2) : array2 :=
  (λ r, (λ c, next_state (get g (r, c)) (neighbor_count H W g r c)) <$> seq 0 W)
    <$> seq 0 H.

End Ref.

(** A grid whose cells are all 0 (DEAD) or 1 (ALIVE). *)
Definition binary (g : array2) : Prop :=
  Forall (Forall (λ v, v = 0 ∨ v = 1)) g.

(** ** Notions the statements use *)

(** The grid after [k] steps of the program. *)
Fixpoint generation (k : nat) (g : array2) : option array2 :=
  match k with
  | O => Some g
  | S k' => g' ← step g; generation k' g'
  end.

(** The state the program saves from: the seeded grid, an image that
    still shows [shown], nothing called and nothing grabbed yet. *)
Definition start (g shown : array2) : world :=
  {| grid := g; im := shown; calls := []; grabbed := [] |}.

(** A seeding coordinate inside the 100 by 100 grid. *)
Definition in_grid (p : Z * Z) : Prop :=
  0 <= p.1 < Z.of_nat GRID_SIZE ∧ 0 <= p.2 < Z.of_nat GRID_SIZE.

(** The index a roll by [s] reads, on an axis of length [n]. *)
Definition back (n : nat) (s : Z) (i : nat) : nat :=
  Z.to_nat ((Z.of_nat i - s) `mod` Z.of_nat n).

(** [x] is [x0] or the index after it, around an axis of length [n]. *)
Definition band (n x0 x : nat) : bool :=
  bool_decide (x = x0 ∨ x = Z.to_nat ((Z.of_nat x0 + 1) `mod` Z.of_nat n)).

(** Cell [(r, c)] belongs to the 2 by 2 block whose first corner is
    [(r0, c0)]; the block may straddle the edges of the torus. *)
Definition in_block (H W r0 c0 r c : nat) : bool :=
  band H r0 r && band W c0 c.

Definition b2z (b : bool) : Z := if b then 1 else 0.

(** The only ALIVE cells of [g] are those of the block at [(r0, c0)]. *)
Definition block_at (H W r0 c0 : nat) (g : array2) : Prop :=
  shape H W g ∧ (r0 < H)%nat ∧ (c0 < W)%nat ∧
  ∀ r c, (r < H)%nat → (c < W)%nat →
         cell g r c = Some (b2z (in_block H W r0 c0 r c)).


(** *** Small grids to run the program on *)

(** One live cell, in the corner. *)
Definition corner3 : array2 := [[1;0;0];[0;0;0];[0;0;0]].

(** A blinker: three live cells in a column. *)
Definition blinker : array2 :=
  [[0;0;0;0;0];
   [0;0;1;0;0];
   [0;0;1;0;0];
   [0;0;1;0;0];
   [0;0;0;0;0]].

(** A block that straddles both edges of a 4 by 5 torus. *)
Definition corner_block : array2 :=
  [[1;0;0;0;1];
   [0;0;0;0;0];
   [0;0;0;0;0];
   [1;0;0;0;1]].

(** The grid moved [dr] rows down and [dc] columns to the right, around
    the torus: the two rolls the stepper uses, one after the other. *)
Definition shift (g : array2) (dr dc : Z) : array2 :=
  roll (roll g dr Axis0) dc Axis1.

(** A glider on a 5 by 5 torus. *)
Definition glider5 : array2 :=
  [[0;1;0;0;0];
   [0;0;1;0;0];
   [1;1;1;0;0];
   [0;0;0;0;0];
   [0;0;0;0;0]].

(** A grid with a cell the rule table has no row for. *)
Definition stray2 : array2 := [[0;0];[0;2]].

(** Shape and contents of a grid written out in full. *)
Ltac shape_tac :=
  split; [reflexivity|];
  repeat (apply Forall_cons_2; [reflexivity|]); apply Forall_nil_2.

Ltac binary_tac :=
  repeat (apply Forall_cons_2;
          [repeat (apply Forall_cons_2; [lia|]); apply Forall_nil_2|]);
  apply Forall_nil_2.

(** ** Arrays: shapes and entries *)

Section arrays.

Implicit Types (a b g : array2) (H W r c : nat).

Lemma shape_row H W a r row : shape H W a → a !! r = Some row → length row = W.
Proof.
  intros [_ Hall] Hr. rewrite Forall_lookup in Hall. by eapply Hall.
Qed.

Lemma shape_cell H W a r c :
  shape H W a → (r < H)%nat → (c < W)%nat → is_Some (cell a r c).
Proof.
  intros Hs Hr Hc. unfold cell.
  destruct (lookup_lt_is_Some_2 a r) as [row Hrow]; [destruct Hs; lia|].
  rewrite Hrow. simpl. apply lookup_lt_is_Some_2.
  by rewrite (shape_row _ _ _ _ _ Hs Hrow).
Qed.

Lemma cell_Some_lt H W a r c v :
  shape H W a → cell a r c = Some v → (r < H)%nat ∧ (c < W)%nat.
Proof.
  intros Hs. unfold cell. destruct (a !! r) as [row|] eqn:Hrow; [|done].
  simpl. intros Hc. split.
  - destruct Hs as [<- _]. by eapply lookup_lt_Some.
  - rewrite <- (shape_row _ _ _ _ _ Hs Hrow). by eapply lookup_lt_Some.
Qed.

(** Two arrays of one shape with the same entries are the same. *)
Lemma array2_eq H W a b :
  shape H W a → shape H W b →
  (∀ r c, (r < H)%nat → (c < W)%nat → cell a r c = cell b r c) →
  a = b.
Proof.
  intros Ha Hb Hcell. apply list_eq_same_length with H; try apply Ha; try apply Hb.
  intros r x y Hr Hx Hy. apply list_eq_same_length with W.
  - exact (shape_row H W b r y Hb Hy).
  - exact (shape_row H W a r x Ha Hx).
  - intros c u v Hc Hu Hv. specialize (Hcell r c Hr Hc).
    unfold cell in Hcell. rewrite Hx, Hy in Hcell. simpl in Hcell. congruence.
Qed.

Lemma binary_cell g r c v : binary g → cell g r c = Some v → v = 0 ∨ v = 1.
Proof.
  unfold binary, cell. intros Hb. destruct (g !! r) as [row|] eqn:Hrow; [|done].
  simpl. intros Hc. rewrite Forall_lookup in Hb. specialize (Hb _ _ Hrow).
  rewrite Forall_lookup in Hb. by eapply Hb.
Qed.

Lemma binary_intro g :
  (∀ r c v, cell g r c = Some v → v = 0 ∨ v = 1) → binary g.
Proof.
  intros Hc. apply Forall_lookup. intros r row Hrow.
  apply Forall_lookup. intros c v Hv. apply (Hc r c).
  unfold cell. by rewrite Hrow.
Qed.

(** *** Rolling *)

Lemma length_roll_axis {A} (s : Z) (l : list A) : length (roll_axis s l) = length l.
Proof.
  unfold roll_axis. case_decide; [done|].
  rewrite length_app, length_drop, length_take. lia.
Qed.

(** Entry [i] of a rolled axis is entry [(i - shift) mod n] of the
    original. *)
Lemma lookup_roll_axis {A} (s : Z) (l : list A) (i : nat) :
  (i < length l)%nat →
  roll_axis s l !! i =
    l !! Z.to_nat ((Z.of_nat i - s) `mod` Z.of_nat (length l)).
Proof.
  intros Hi. unfold roll_axis. case_decide; [lia|].
  set (n := length l) in *.
  assert (Hoff : 0 <= s `mod` Z.of_nat n < Z.of_nat n) by (apply Z.mod_pos_bound; lia).
  rewrite <- (Zminus_mod_idemp_r (Z.of_nat i) s).
  set (off := s `mod` Z.of_nat n) in *.
  destruct (decide (i < Z.to_nat off)%nat) as [Hlt|Hge].
  - rewrite lookup_app_l by (rewrite length_drop; lia).
    rewrite lookup_drop. f_equal.
    replace ((Z.of_nat i - off) `mod` Z.of_nat n) with (Z.of_nat i - off + Z.of_nat n).
    + lia.
    + apply Z.mod_unique with (-1); lia.
  - rewrite lookup_app_r by (rewrite length_drop; lia).
    rewrite length_drop. rewrite lookup_take_lt by lia. f_equal.
    rewrite Z.mod_small by lia. lia.
Qed.

Lemma shape_roll H W a s ax : shape H W a → shape H W (roll a s ax).
Proof.
  intros [Hlen Hall]. destruct ax; simpl; split.
  - by rewrite length_roll_axis.
  - apply Forall_lookup. intros i row Hrow.
    assert (Hi : (i < length a)%nat).
    { rewrite <- (length_roll_axis s a). by eapply lookup_lt_Some. }
    rewrite lookup_roll_axis in Hrow by done.
    rewrite Forall_lookup in Hall. by eapply Hall.
  - by rewrite length_fmap.
  - apply Forall_fmap. eapply Forall_impl; [done|]. simpl.
    intros row <-. apply length_roll_axis.
Qed.

Lemma back_lt n s i : (0 < n)%nat → (back n s i < n)%nat.
Proof.
  intros Hn. unfold back.
  pose proof (Z.mod_pos_bound (Z.of_nat i - s) (Z.of_nat n)). lia.
Qed.

Lemma cell_roll0 H W a s r c :
  shape H W a → (r < H)%nat →
  cell (roll a s Axis0) r c = cell a (back H s r) c.
Proof.
  intros [Hlen _] Hr. unfold cell, back. simpl.
  rewrite lookup_roll_axis by lia. by rewrite Hlen.
Qed.

Lemma cell_roll1 H W a s r c :
  shape H W a → (c < W)%nat →
  cell (roll a s Axis1) r c = cell a r (back W s c).
Proof.
  intros Hs Hc. unfold cell, back. simpl. rewrite list_lookup_fmap.
  destruct (a !! r) as [row|] eqn:Hrow; [|done]. simpl.
  pose proof (shape_row _ _ _ _ _ Hs Hrow) as Hlen.
  rewrite lookup_roll_axis by lia. by rewrite Hlen.
Qed.

(** *** Adding *)

Lemma cell_add a b r c :
  cell (a ⊞ b) r c = x ← cell a r c; y ← cell b r c; Some (add64 x y).
Proof.
  unfold cell, Np.add. rewrite lookup_zip_with.
  destruct (a !! r) as [ra|]; [|done]. simpl.
  destruct (b !! r) as [rb|]; simpl.
  - rewrite lookup_zip_with. done.
  - by destruct (ra !! c).
Qed.

Lemma shape_add H W a b : shape H W a → shape H W b → shape H W (a ⊞ b).
Proof.
  intros [Ha Hra] [Hb Hrb]. unfold Np.add. split.
  - rewrite length_zip_with. lia.
  - apply Forall_lookup. intros i row. rewrite lookup_zip_with.
    destruct (a !! i) as [ra|] eqn:Hia; [|done]. simpl.
    destruct (b !! i) as [rb|] eqn:Hib; [|done]. simpl.
    intros [= <-]. rewrite length_zip_with.
    rewrite Forall_lookup in Hra. rewrite Forall_lookup in Hrb.
    rewrite (Hra _ _ Hia), (Hrb _ _ Hib). lia.
Qed.

Lemma add64_small x y :
  - 2 ^ 63 <= x + y < 2 ^ 63 → add64 x y = x + y.
Proof.
  intros Hxy. unfold add64, wrap64. rewrite Z.mod_small; lia.
Qed.

End arrays.

(** ** The rule table and the neighbour count *)

Section stepper.

Implicit Types (g : array2) (H W r c : nat).

Lemma item2_rules s n :
  s = 0 ∨ s = 1 → 0 <= n <= 8 → item2 rules s n = Some (Ref.next_state s n).
Proof.
  intros Hs Hn.
  assert (Hcases : n = 0 ∨ n = 1 ∨ n = 2 ∨ n = 3 ∨ n = 4 ∨ n = 5 ∨ n = 6 ∨ n = 7 ∨ n = 8)
    by lia.
  destruct Hs as [-> | ->];
    repeat (destruct Hcases as [-> | Hcases]; [reflexivity|]); by subst.
Qed.

Lemma next_state_binary s n : Ref.next_state s n = 0 ∨ Ref.next_state s n = 1.
Proof. unfold Ref.next_state. repeat case_decide; auto. Qed.

Lemma get_binary g p : binary g → Ref.get g p = 0 ∨ Ref.get g p = 1.
Proof.
  intros Hb. unfold Ref.get. destruct (cell g p.1 p.2) as [v|] eqn:Hv; simpl; [|auto].
  by eapply binary_cell.
Qed.

Lemma get_cell g r c v : cell g r c = Some v → Ref.get g (r, c) = v.
Proof. unfold Ref.get. simpl. by intros ->. Qed.

Lemma neighbor_count_bounds H W g r c :
  binary g → 0 <= Ref.neighbor_count H W g r c <= 8.
Proof.
  intros Hb. unfold Ref.neighbor_count, Ref.moore_cells, Ref.moore_offsets. simpl.
  repeat match goal with
         | |- context [Ref.get g ?p] =>
             let Hp := fresh in
             destruct (get_binary g p Hb) as [Hp | Hp]; rewrite Hp; clear Hp
         end; lia.
Qed.

(** A roll by 1 reads the entry before, a roll by -1 the entry after. *)
Lemma back_1 n i : back n 1 i = Z.to_nat ((Z.of_nat i + -1) `mod` Z.of_nat n).
Proof. unfold back. do 2 f_equal. Qed.

Lemma back_m1 n i : back n (-1) i = Z.to_nat ((Z.of_nat i + 1) `mod` Z.of_nat n).
Proof. unfold back. do 2 f_equal. Qed.

Lemma wrap_index_0 n i :
  (i < n)%nat → Z.to_nat ((Z.of_nat i + 0) `mod` Z.of_nat n) = i.
Proof. intros Hi. rewrite Z.add_0_r, Z.mod_small by lia. lia. Qed.

Lemma wrap_lt n i d :
  (0 < n)%nat → (Z.to_nat ((Z.of_nat i + d) `mod` Z.of_nat n) < n)%nat.
Proof.
  intros Hn. pose proof (Z.mod_pos_bound (Z.of_nat i + d) (Z.of_nat n)). lia.
Qed.

(** On a grid of zeros and ones the program's neighbour count is the
    modulo-indexed count, at every cell. *)
Lemma cell_num_neighbors H W g r c :
  shape H W g → binary g → (r < H)%nat → (c < W)%nat →
  cell (num_neighbors g) r c = Some (Ref.neighbor_count H W g r c).
Proof.
  intros Hs Hb Hr Hc. unfold num_neighbors.
  rewrite !cell_add.
  rewrite !(cell_roll1 H W) by (done || by apply shape_roll).
  rewrite !(cell_roll0 H W) by done.
  rewrite !back_1, !back_m1.
  unfold Ref.neighbor_count, Ref.moore_cells, Ref.moore_offsets. simpl.
  rewrite !(wrap_index_0 H r), !(wrap_index_0 W c) by done.
  set (up := Z.to_nat ((Z.of_nat r + -1) `mod` Z.of_nat H)).
  set (dn := Z.to_nat ((Z.of_nat r + 1) `mod` Z.of_nat H)).
  set (lf := Z.to_nat ((Z.of_nat c + -1) `mod` Z.of_nat W)).
  set (rt := Z.to_nat ((Z.of_nat c + 1) `mod` Z.of_nat W)).
  assert (Hup : (up < H)%nat) by (apply wrap_lt; lia).
  assert (Hdn : (dn < H)%nat) by (apply wrap_lt; lia).
  assert (Hlf : (lf < W)%nat) by (apply wrap_lt; lia).
  assert (Hrt : (rt < W)%nat) by (apply wrap_lt; lia).
  repeat match goal with
         | |- context [cell g ?i ?j] =>
             let v := fresh "v" in
             let Hv := fresh "Hv" in
             let Hv01 := fresh "Hv01" in
             destruct (shape_cell H W g i j Hs) as [v Hv]; [done..|];
             assert (Hv01 : 0 <= v <= 1)
               by (destruct (binary_cell g i j v Hb Hv); lia);
             rewrite ?Hv, ?(get_cell g i j v Hv)
         end.
  simpl.
  repeat match goal with
         | |- context [add64 ?x ?y] => rewrite (add64_small x y) by lia
         end.
  f_equal. unfold Ref.sum. simpl. lia.
Qed.

End stepper.

(** ** One step *)

Section step.

Implicit Types (g : array2) (H W r c : nat).

Lemma cell_sync_step H W g r c :
  (r < H)%nat → (c < W)%nat →
  cell (Ref.sync_step H W g) r c =
    Some (Ref.next_state (Ref.get g (r, c)) (Ref.neighbor_count H W g r c)).
Proof.
  intros Hr Hc. unfold cell, Ref.sync_step.
  rewrite list_lookup_fmap, lookup_seq_lt by done. simpl.
  by rewrite list_lookup_fmap, lookup_seq_lt.
Qed.

Lemma shape_sync_step H W g : shape H W (Ref.sync_step H W g).
Proof.
  unfold Ref.sync_step. split.
  - by rewrite length_fmap, length_seq.
  - apply Forall_fmap, Forall_forall. intros r _. simpl.
    by rewrite length_fmap, length_seq.
Qed.

Lemma binary_sync_step H W g : binary (Ref.sync_step H W g).
Proof.
  apply binary_intro. intros r c v Hv.
  destruct (cell_Some_lt H W _ r c v (shape_sync_step H W g) Hv) as [Hr Hc].
  rewrite cell_sync_step in Hv by done. injection Hv as <-.
  apply next_state_binary.
Qed.

(** Looking a whole grid up in the table succeeds as soon as every
    single look-up does, and gives those entries. *)
Lemma take2_Some H W t a b res :
  shape H W a → shape H W b → shape H W res →
  (∀ r c x y, cell a r c = Some x → cell b r c = Some y →
              ∃ v, item2 t x y = Some v ∧ cell res r c = Some v) →
  take2 t a b = Some res.
Proof.
  intros Ha Hb Hres Hcell. unfold take2. apply mapM_Some.
  apply Forall2_same_length_lookup_2.
  { rewrite length_zip. destruct Ha as [-> _], Hb as [-> _], Hres as [-> _]. lia. }
  intros r [ra rb] row Hz Hrow.
  apply lookup_zip_with_Some in Hz as (ra' & rb' & [= <- <-] & Hra & Hrb).
  simpl. apply mapM_Some. apply Forall2_same_length_lookup_2.
  { rewrite length_zip.
    rewrite (shape_row _ _ _ _ _ Ha Hra), (shape_row _ _ _ _ _ Hb Hrb),
      (shape_row _ _ _ _ _ Hres Hrow). lia. }
  intros c [x y] v Hz Hv.
  apply lookup_zip_with_Some in Hz as (x' & y' & [= <- <-] & Hx & Hy).
  simpl. destruct (Hcell r c x y) as (v' & Hitem & Hres').
  - unfold cell. by rewrite Hra.
  - unfold cell. by rewrite Hrb.
  - unfold cell in Hres'. rewrite Hrow in Hres'. simpl in Hres'. congruence.
Qed.

Lemma shape_num_neighbors H W g : shape H W g → shape H W (num_neighbors g).
Proof.
  intros Hs. unfold num_neighbors. repeat apply shape_add; repeat apply shape_roll; done.
Qed.

(** The program's step is the synchronous step of the reference. *)
Lemma step_sync_step H W g :
  shape H W g → binary g → step g = Some (Ref.sync_step H W g).
Proof.
  intros Hs Hb. unfold step, step_with.
  apply (take2_Some H W); [done|by apply shape_num_neighbors|apply shape_sync_step|].
  intros r c x y Hx Hy.
  destruct (cell_Some_lt H W g r c x Hs Hx) as [Hr Hc].
  rewrite (cell_num_neighbors H W) in Hy by done. injection Hy as <-.
  eexists. split.
  - apply item2_rules; [by eapply binary_cell|by apply neighbor_count_bounds].
  - rewrite cell_sync_step by done. by rewrite (get_cell g r c x Hx).
Qed.

End step.

(** ** The block still life *)

Section block.

Implicit Types (g : array2) (H W r c n x : nat).

Lemma wrap_pred n x :
  (x < n)%nat →
  Z.to_nat ((Z.of_nat x + -1) `mod` Z.of_nat n) =
    if decide (x = 0%nat) then (n - 1)%nat else (x - 1)%nat.
Proof.
  intros Hx. case_decide.
  - subst x. rewrite <- (Z.mod_unique (Z.of_nat 0 + -1) (Z.of_nat n) (-1) (Z.of_nat n - 1)); lia.
  - rewrite Z.mod_small; lia.
Qed.

Lemma wrap_succ n x :
  (x < n)%nat →
  Z.to_nat ((Z.of_nat x + 1) `mod` Z.of_nat n) =
    if decide (x = (n - 1)%nat) then 0%nat else (x + 1)%nat.
Proof.
  intros Hx. case_decide.
  - rewrite <- (Z.mod_unique (Z.of_nat x + 1) (Z.of_nat n) 1 0); lia.
  - rewrite Z.mod_small; lia.
Qed.

(** Along one axis of length at least 4: a cell inside the band has
    exactly one neighbour in it, a cell outside has at most one. *)
Lemma band_neighbours n x0 x :
  (4 <= n)%nat → (x0 < n)%nat → (x < n)%nat →
  let up := Z.to_nat ((Z.of_nat x + -1) `mod` Z.of_nat n) in
  let dn := Z.to_nat ((Z.of_nat x + 1) `mod` Z.of_nat n) in
  if band n x0 x then xorb (band n x0 up) (band n x0 dn) = true
  else band n x0 up && band n x0 dn = false.
Proof.
  intros Hn Hx0 Hx. simpl. unfold band.
  pose proof (wrap_pred n x Hx) as Hup.
  pose proof (wrap_succ n x Hx) as Hdn.
  pose proof (wrap_succ n x0 Hx0) as Hnext.
  destruct (decide (x = 0%nat)), (decide (x = (n - 1)%nat)),
    (decide (x0 = (n - 1)%nat)); try lia;
    rewrite Hup, Hdn, Hnext; clear Hup Hdn Hnext;
    repeat case_bool_decide; simpl; try done; lia.
Qed.

Lemma get_block H W r0 c0 g r c :
  block_at H W r0 c0 g → (r < H)%nat → (c < W)%nat →
  Ref.get g (r, c) = b2z (in_block H W r0 c0 r c).
Proof. intros (_ & _ & _ & Hg) Hr Hc. apply get_cell. by apply Hg. Qed.

Lemma binary_block H W r0 c0 g : block_at H W r0 c0 g → binary g.
Proof.
  intros Hblk. pose proof Hblk as (Hs & _ & _ & Hg).
  apply binary_intro. intros r c v Hv.
  destruct (cell_Some_lt H W g r c v Hs Hv) as [Hr Hc].
  rewrite Hg in Hv by done. injection Hv as <-.
  destruct (in_block _ _ _ _ _ _); simpl; auto.
Qed.

(** Under Conway's rule every cell of a block grid keeps its state. *)
Lemma block_next_state H W r0 c0 g r c :
  (4 <= H)%nat → (4 <= W)%nat → block_at H W r0 c0 g →
  (r < H)%nat → (c < W)%nat →
  Ref.next_state (Ref.get g (r, c)) (Ref.neighbor_count H W g r c) =
    b2z (in_block H W r0 c0 r c).
Proof.
  intros HH HW Hblk Hr Hc. pose proof Hblk as (_ & Hr0 & Hc0 & _).
  pose proof (band_neighbours H r0 r HH Hr0 Hr) as Hrows.
  pose proof (band_neighbours W c0 c HW Hc0 Hc) as Hcols.
  unfold Ref.neighbor_count, Ref.moore_cells, Ref.moore_offsets. simpl in *.
  rewrite !(wrap_index_0 H r), !(wrap_index_0 W c) by done.
  rewrite !(get_block H W r0 c0) by (done || apply wrap_lt; lia).
  unfold in_block.
  destruct (band H r0 r), (band W c0 c),
    (band H r0 (Z.to_nat ((Z.of_nat r + -1) `mod` Z.of_nat H))),
    (band H r0 (Z.to_nat ((Z.of_nat r + 1) `mod` Z.of_nat H))),
    (band W c0 (Z.to_nat ((Z.of_nat c + -1) `mod` Z.of_nat W))),
    (band W c0 (Z.to_nat ((Z.of_nat c + 1) `mod` Z.of_nat W)));
    simpl in *; done.
Qed.

End block.

(** ** Seeding *)

Section seeding.

Implicit Types (g : array2) (H W r c : nat) (i j v : Z).

(** Where an index in [-n <= i < n] lands. *)
Lemma norm_index_Some n i :
  - Z.of_nat n <= i < Z.of_nat n →
  norm_index n i = Some (Z.to_nat (i `mod` Z.of_nat n)).
Proof.
  intros Hi. unfold norm_index. repeat case_decide; f_equal.
  - rewrite Z.mod_small; lia.
  - rewrite <- (Z.mod_unique i (Z.of_nat n) (-1) (i + Z.of_nat n)); lia.
  - lia.
Qed.

Lemma norm_index_None n i :
  ¬ (- Z.of_nat n <= i < Z.of_nat n) → norm_index n i = None.
Proof. intros Hi. unfold norm_index. repeat case_decide; try done; lia. Qed.

Lemma norm_index_lt n i k : norm_index n i = Some k → (k < n)%nat.
Proof. unfold norm_index. repeat case_decide; intros [= <-]; lia. Qed.

Lemma setitem2_None H W g i j v :
  shape H W g →
  ¬ (- Z.of_nat H <= i < Z.of_nat H ∧ - Z.of_nat W <= j < Z.of_nat W) →
  setitem2 g i j v = None.
Proof.
  intros Hs Hout. unfold setitem2.
  destruct (norm_index (length g) i) as [r|] eqn:Hr; [|done]. simpl.
  destruct (g !! r) as [row|] eqn:Hrow; [|done]. simpl.
  rewrite (shape_row _ _ _ _ _ Hs Hrow).
  rewrite norm_index_None; [done|].
  intros Hj. apply Hout. split; [|done].
  destruct Hs as [<- _]. unfold norm_index in Hr. repeat case_decide; try done; lia.
Qed.

Lemma setitem2_Some H W g i j v :
  shape H W g →
  - Z.of_nat H <= i < Z.of_nat H → - Z.of_nat W <= j < Z.of_nat W →
  ∃ g', setitem2 g i j v = Some g' ∧ shape H W g' ∧
        cell g' (Z.to_nat (i `mod` Z.of_nat H)) (Z.to_nat (j `mod` Z.of_nat W)) = Some v.
Proof.
  intros Hs Hi Hj. unfold setitem2. pose proof Hs as [Hlen Hall].
  rewrite Hlen, (norm_index_Some H i) by done. simpl.
  set (r := Z.to_nat (i `mod` Z.of_nat H)).
  assert (Hr : (r < H)%nat).
  { pose proof (Z.mod_pos_bound i (Z.of_nat H)). lia. }
  destruct (lookup_lt_is_Some_2 g r) as [row Hrow]; [lia|].
  rewrite Hrow. simpl. pose proof (shape_row _ _ _ _ _ Hs Hrow) as Hw.
  rewrite Hw, (norm_index_Some W j) by done. simpl.
  set (c := Z.to_nat (j `mod` Z.of_nat W)).
  assert (Hc : (c < W)%nat).
  { pose proof (Z.mod_pos_bound j (Z.of_nat W)). lia. }
  eexists. split; [done|]. split; [split|].
  - by rewrite length_insert.
  - apply Forall_insert; [done|]. by rewrite length_insert.
  - unfold cell. rewrite list_lookup_insert_eq by lia. simpl.
    apply list_lookup_insert_eq. lia.
Qed.

End seeding.

(** ** The frame loop *)

Section frames.

Implicit Types (g : array2) (H W k : nat) (w : world).

Lemma step_total H W g :
  shape H W g → binary g → ∃ g', step g = Some g' ∧ shape H W g' ∧ binary g'.
Proof.
  intros Hs Hb. exists (Ref.sync_step H W g).
  split; [by apply step_sync_step|]. split; [apply shape_sync_step|apply binary_sync_step].
Qed.

Lemma generation_total H W k : ∀ g,
  shape H W g → binary g → ∃ g', generation k g = Some g' ∧ shape H W g' ∧ binary g'.
Proof.
  induction k as [|k IH]; intros g Hs Hb; simpl.
  - by exists g.
  - destruct (step_total H W g Hs Hb) as (g1 & -> & Hs1 & Hb1). simpl. by apply IH.
Qed.

Lemma generation_add a b g :
  generation (a + b) g = generation a g ≫= generation b.
Proof.
  revert g. induction a as [|a IH]; intros g; simpl; [done|].
  destruct (step g) as [g1|]; simpl; [apply IH|done].
Qed.

Lemma generation_S_r k g : generation (S k) g = generation k g ≫= step.
Proof.
  replace (S k) with (k + 1)%nat by lia. rewrite generation_add.
  destruct (generation k g) as [g1|]; simpl; [|done]. by destruct (step g1).
Qed.

Lemma animate_life_Some n w g' :
  step (grid w) = Some g' →
  animate_life n w =
    Some {| grid := g'; im := g'; calls := calls w ++ [n]; grabbed := grabbed w |}.
Proof. intros Hstep. unfold animate_life. by rewrite Hstep. Qed.

(** Walking a list of frame numbers: one call per number, one grabbed
    image per call, and the [k]-th image is the grid [k + 1] steps
    on. *)
Lemma draw_frames_spec H W ns : ∀ w,
  shape H W (grid w) → binary (grid w) →
  ∃ w' fs, draw_frames ns w = Some w' ∧
    calls w' = calls w ++ ns ∧
    generation (length ns) (grid w) = Some (grid w') ∧
    grabbed w' = grabbed w ++ fs ∧ length fs = length ns ∧
    ∀ k, (k < length ns)%nat → fs !! k = generation (S k) (grid w).
Proof.
  induction ns as [|n ns IH]; intros w Hs Hb.
  - exists w, []. simpl. rewrite !app_nil_r. repeat split; try done. intros k Hk. lia.
  - destruct (step_total H W _ Hs Hb) as (g1 & Hstep & Hs1 & Hb1).
    simpl. unfold animate_life. rewrite Hstep. simpl.
    destruct (IH (grab_frame {| grid := g1; im := g1; calls := calls w ++ [n];
                                grabbed := grabbed w |}) Hs1 Hb1)
      as (w' & fs & -> & Hcalls & Hgen & Hgrab & Hlen & Hfs).
    simpl in *. exists w', (g1 :: fs). repeat split.
    + by rewrite Hcalls, <- app_assoc.
    + done.
    + by rewrite Hgrab, <- app_assoc.
    + simpl. by rewrite Hlen.
    + intros [|k] Hk; simpl.
      * by destruct (step g1).
      * apply Hfs. lia.
Qed.

End frames.

(** * The properties *)

(** C1. The rule table is Conway's: for a cell state [s] (0 = DEAD,
    1 = ALIVE) and a neighbour count [n] from 0 to 8, [rules[s, n]] is
    defined and is 0 or 1; a DEAD cell's next state is ALIVE exactly
    when [n = 3], an ALIVE cell's exactly when [n] is 2 or 3. *)
Theorem rules_encode_conway (s n : Z) :
  s = 0 ∨ s = 1 → 0 <= n <= 8 →
  ∃ v, item2 rules s n = Some v ∧ (v = 0 ∨ v = 1) ∧
       (s = 0 → (v = 1 ↔ n = 3)) ∧
       (s = 1 → (v = 1 ↔ n = 2 ∨ n = 3)).
Proof.
  intros Hs Hn. exists (Ref.next_state s n).
  split; [by apply item2_rules|]. split; [apply next_state_binary|].
  unfold Ref.next_state. split; intros ->; repeat case_decide; try done; lia.
Qed.

Lemma rules_encode_conway_witness :
  (1 = 0 ∨ 1 = 1) ∧ 0 <= 2 <= 8 ∧
  ∃ v, item2 rules 1 2 = Some v ∧ (v = 0 ∨ v = 1) ∧
       (1 = 0 → (v = 1 ↔ 2 = 3)) ∧
       (1 = 1 → (v = 1 ↔ 2 = 2 ∨ 2 = 3)).
Proof.
  split; [right; reflexivity|]. split; [lia|].
  apply (rules_encode_conway 1 2); [right; reflexivity|lia].
Defined.

Lemma sum_get_nonneg g (l : list (nat * nat)) :
  binary g → 0 <= Ref.sum (Ref.get g <$> l).
Proof.
  intros Hb. unfold Ref.sum. induction l as [|q l IH]; csimpl; [done|].
  destruct (get_binary g q Hb); lia.
Qed.

Lemma get_le_sum g p (l : list (nat * nat)) :
  binary g → p ∈ l → Ref.get g p <= Ref.sum (Ref.get g <$> l).
Proof.
  intros Hb. induction l as [|q l IH]; intros Hin.
  - by apply elem_of_nil in Hin.
  - pose proof (sum_get_nonneg g l Hb) as Hl.
    apply elem_of_cons in Hin as [-> | Hin].
    + unfold Ref.sum in *. csimpl. lia.
    + specialize (IH Hin). unfold Ref.sum in *. csimpl.
      destruct (get_binary g q Hb); lia.
Qed.

Lemma origin_wraps H W (p : nat * nat) :
  (0 < H)%nat → (0 < W)%nat →
  p ∈ [((H - 1)%nat, (W - 1)%nat); ((H - 1)%nat, 0%nat); (0%nat, (W - 1)%nat)] →
  (0%nat, 0%nat) ∈ Ref.moore_cells H W p.1 p.2.
Proof.
  intros HH HW Hp. unfold Ref.moore_cells, Ref.moore_offsets.
  repeat (apply elem_of_cons in Hp as [-> | Hp]); [| | |by apply elem_of_nil in Hp];
    simpl; rewrite ?wrap_succ, ?wrap_index_0 by lia;
    repeat case_decide; try lia;
    repeat first [apply list_elem_of_here | apply list_elem_of_further].
Qed.

(** C2. On an [H] by [W] grid of zeros and ones, the neighbour count
    the program computes at [(r, c)] is the sum of the eight Moore
    neighbours with rows taken modulo [H] and columns modulo [W].  In
    particular [(0, 0)] is among the neighbours of [(H-1, W-1)],
    [(H-1, 0)] and [(0, W-1)], and a live cell there is counted at each
    of the three. *)
Theorem neighbor_count_toroidal H W (g : array2) (r c : nat) :
  shape H W g → binary g → (r < H)%nat → (c < W)%nat →
  cell (num_neighbors g) r c = Some (Ref.neighbor_count H W g r c) ∧
  ∀ p : nat * nat,
    p ∈ [((H - 1)%nat, (W - 1)%nat); ((H - 1)%nat, 0%nat); (0%nat, (W - 1)%nat)] →
    (0%nat, 0%nat) ∈ Ref.moore_cells H W p.1 p.2 ∧
    (cell g 0 0 = Some 1 → ∃ n, cell (num_neighbors g) p.1 p.2 = Some n ∧ 1 <= n).
Proof.
  intros Hs Hb Hr Hc. split; [by apply cell_num_neighbors|].
  intros p Hp. assert (Hin := origin_wraps H W p ltac:(lia) ltac:(lia) Hp).
  split; [done|]. intros Hlive. exists (Ref.neighbor_count H W g p.1 p.2). split.
  - apply cell_num_neighbors; try done;
      repeat (apply elem_of_cons in Hp as [-> | Hp]); simpl; try lia;
      by apply elem_of_nil in Hp.
  - unfold Ref.neighbor_count. rewrite <- (get_cell g 0 0 1 Hlive).
    by apply get_le_sum.
Qed.

Lemma neighbor_count_toroidal_witness :
  shape 3 3 corner3 ∧ binary corner3 ∧ (2 < 3)%nat ∧
  cell (num_neighbors corner3) 2 2 = Some (Ref.neighbor_count 3 3 corner3 2 2) ∧
  ∀ p : nat * nat,
    p ∈ [((3 - 1)%nat, (3 - 1)%nat); ((3 - 1)%nat, 0%nat); (0%nat, (3 - 1)%nat)] →
    (0%nat, 0%nat) ∈ Ref.moore_cells 3 3 p.1 p.2 ∧
    (cell corner3 0 0 = Some 1 → ∃ n, cell (num_neighbors corner3) p.1 p.2 = Some n ∧ 1 <= n).
Proof.
  assert (Hs : shape 3 3 corner3) by shape_tac.
  assert (Hb : binary corner3) by binary_tac.
  assert (Hlt : (2 < 3)%nat) by lia.
  split; [exact Hs|]. split; [exact Hb|]. split; [exact Hlt|].
  exact (neighbor_count_toroidal 3 3 corner3 2 2 Hs Hb Hlt Hlt).
Defined.

(** C3. The step is synchronous.  On an [H] by [W] grid of zeros and
    ones the program's step is the reference step, in which every cell
    is computed from the grid before the step: the new value at
    [(r, c)] is the rule applied to the old value there and to the old
    values of its eight neighbours.  Hence two grids that agree at a
    cell and at its eight neighbours get the same new value at that
    cell, whatever they hold elsewhere. *)
Theorem step_synchronous H W (g : array2) :
  shape H W g → binary g →
  step g = Some (Ref.sync_step H W g) ∧
  (∀ r c, (r < H)%nat → (c < W)%nat →
     (step g ≫= λ g', cell g' r c) =
       Some (Ref.next_state (Ref.get g (r, c))
               (Ref.sum (Ref.get g <$> Ref.moore_cells H W r c)))) ∧
  (∀ g2 r c, shape H W g2 → binary g2 → (r < H)%nat → (c < W)%nat →
     Ref.get g (r, c) = Ref.get g2 (r, c) →
     (∀ p, p ∈ Ref.moore_cells H W r c → Ref.get g p = Ref.get g2 p) →
     (step g ≫= λ g', cell g' r c) = (step g2 ≫= λ g', cell g' r c)).
Proof.
  intros Hs Hb. split; [by apply step_sync_step|]. split.
  - intros r c Hr Hc. rewrite (step_sync_step H W) by done. simpl.
    by rewrite cell_sync_step.
  - intros g2 r c Hs2 Hb2 Hr Hc Hself Hnbrs.
    rewrite !(step_sync_step H W) by done. simpl.
    rewrite !cell_sync_step by done. unfold Ref.neighbor_count.
    rewrite Hself. do 3 f_equal. apply list_fmap_ext.
    intros i p Hp. apply Hnbrs. by eapply list_elem_of_lookup_2.
Qed.

Lemma step_synchronous_witness :
  shape 5 5 blinker ∧ binary blinker ∧
  step blinker = Some (Ref.sync_step 5 5 blinker) ∧
  (∀ r c, (r < 5)%nat → (c < 5)%nat →
     (step blinker ≫= λ g', cell g' r c) =
       Some (Ref.next_state (Ref.get blinker (r, c))
               (Ref.sum (Ref.get blinker <$> Ref.moore_cells 5 5 r c)))) ∧
  (∀ g2 r c, shape 5 5 g2 → binary g2 → (r < 5)%nat → (c < 5)%nat →
     Ref.get blinker (r, c) = Ref.get g2 (r, c) →
     (∀ p, p ∈ Ref.moore_cells 5 5 r c → Ref.get blinker p = Ref.get g2 p) →
     (step blinker ≫= λ g', cell g' r c) = (step g2 ≫= λ g', cell g' r c)).
Proof.
  assert (Hs : shape 5 5 blinker) by shape_tac.
  assert (Hb : binary blinker) by binary_tac.
  split; [exact Hs|]. split; [exact Hb|].
  exact (step_synchronous 5 5 blinker Hs Hb).
Defined.

(** C4. On an [H] by [W] grid of zeros and ones every state is 0 or 1
    and every neighbour count is between 0 and 8, so every look-up
    [rules[grid, num_neighbors]] is inside the 2 by 9 table; the step
    succeeds and gives again an [H] by [W] grid of zeros and ones. *)
Theorem step_in_bounds H W (g : array2) :
  shape H W g → binary g →
  shape 2 9 rules ∧
  (∀ r c, (r < H)%nat → (c < W)%nat →
     ∃ s n, cell g r c = Some s ∧ cell (num_neighbors g) r c = Some n ∧
            0 <= s < 2 ∧ 0 <= n <= 8 ∧ is_Some (item2 rules s n)) ∧
  ∃ g', step g = Some g' ∧ shape H W g' ∧ binary g'.
Proof.
  intros Hs Hb. split; [shape_tac|]. split; [|by apply step_total].
  intros r c Hr Hc.
  destruct (shape_cell H W g r c Hs Hr Hc) as [s Hcell].
  pose proof (binary_cell g r c s Hb Hcell) as Hs01.
  pose proof (neighbor_count_bounds H W g r c Hb) as Hn.
  exists s, (Ref.neighbor_count H W g r c).
  split; [done|]. split; [by apply cell_num_neighbors|].
  split; [lia|]. split; [done|]. rewrite item2_rules by done. by eexists.
Qed.

Lemma step_in_bounds_witness :
  shape 5 5 blinker ∧ binary blinker ∧
  shape 2 9 rules ∧
  (∀ r c, (r < 5)%nat → (c < 5)%nat →
     ∃ s n, cell blinker r c = Some s ∧ cell (num_neighbors blinker) r c = Some n ∧
            0 <= s < 2 ∧ 0 <= n <= 8 ∧ is_Some (item2 rules s n)) ∧
  ∃ g', step blinker = Some g' ∧ shape 5 5 g' ∧ binary g'.
Proof.
  assert (Hs : shape 5 5 blinker) by shape_tac.
  assert (Hb : binary blinker) by binary_tac.
  split; [exact Hs|]. split; [exact Hb|].
  exact (step_in_bounds 5 5 blinker Hs Hb).
Defined.

(** C6. Under Conway's rule table, an [H] by [W] grid with [H] and [W]
    at least 4 whose only ALIVE cells are those of one 2 by 2 block,
    wherever the block lies on the torus, is a fixed point of the
    step. *)
Theorem block_still_life H W r0 c0 (g : array2) :
  (4 <= H)%nat → (4 <= W)%nat → block_at H W r0 c0 g →
  step g = Some g.
Proof.
  intros HH HW Hblk. pose proof Hblk as (Hs & _ & _ & Hg).
  rewrite (step_sync_step H W) by (done || by eapply binary_block).
  f_equal. apply (array2_eq H W); [apply shape_sync_step|done|].
  intros r c Hr Hc. rewrite cell_sync_step, Hg by done.
  f_equal. by apply block_next_state.
Qed.

Lemma block_still_life_witness :
  (4 <= 4)%nat ∧ (4 <= 5)%nat ∧ block_at 4 5 3 4 corner_block ∧
  step corner_block = Some corner_block.
Proof.
  assert (Hblk : block_at 4 5 3 4 corner_block).
  { split; [shape_tac|]. split; [lia|]. split; [lia|].
    intros r c Hr Hc.
    do 4 (destruct r as [|r]; [do 5 (destruct c as [|c]; [reflexivity|]); lia|]).
    lia. }
  split; [lia|]. split; [lia|]. split; [exact Hblk|].
  apply (block_still_life 4 5 3 4 corner_block); [lia|lia|exact Hblk].
Defined.

(** ** The command line *)

(** The run that ends in the usage message: the status the program
    exits with there is 0, since [sys.exit()] is called with no
    argument. *)
Lemma usage_exit_status_zero :
  length ["make_img.py"%string] ≠ 2%nat ∧
  ¬ (exit_status (main ascii_upper ends_at_once ["make_img.py"%string]) ≠ 0).
Proof. split; [discriminate|]. intros Hne. apply Hne. reflexivity. Qed.

(** C7, as the program has it.  When the number of arguments is not
    exactly one, or the argument in upper case is not a supported
    pattern, the program prints the request for a pattern and the list
    of valid patterns and exits with status 0.  This holds whatever
    [str.upper] does to the argument, and whatever the rest of the
    program would do: none of it is run, so no grid is created, no
    step is made and no file is written. *)
Theorem usage_error (upper : string → string) (rest : string → process)
    (args : list string) :
  length args ≠ 2%nat ∨ upper (nth 1 args EmptyString) ∉ valid_patterns →
  main upper rest args = usage_exit ∧
  stdout (main upper rest args) =
    ["Please provide a pattern from the list below as an argument:"%string;
     "['SHUTTLES', 'BRAIN']"%string] ∧
  raised (main upper rest args) = Some (SystemExit None) ∧
  exit_status (main upper rest args) = 0 ∧
  state (main upper rest args) = None ∧
  files (main upper rest args) = [].
Proof.
  intros Hbad. assert (Hmain : main upper rest args = usage_exit).
  { unfold main.
    destruct (decide (length args ≠ 2%nat)) as [|Hlen]; [reflexivity|].
    destruct (decide (upper (nth 1 args EmptyString) ∉ valid_patterns)) as [|Hin];
      [reflexivity|].
    exfalso. destruct Hbad; contradiction. }
  rewrite Hmain. repeat split; reflexivity.
Qed.

Lemma usage_error_witness :
  (length ["make_img.py"; "glider"]%string ≠ 2%nat ∨
   ascii_upper (nth 1 ["make_img.py"; "glider"]%string EmptyString) ∉ valid_patterns) ∧
  main ascii_upper ends_at_once ["make_img.py"; "glider"]%string = usage_exit ∧
  stdout (main ascii_upper ends_at_once ["make_img.py"; "glider"]%string) =
    ["Please provide a pattern from the list below as an argument:"%string;
     "['SHUTTLES', 'BRAIN']"%string] ∧
  raised (main ascii_upper ends_at_once ["make_img.py"; "glider"]%string) =
    Some (SystemExit None) ∧
  exit_status (main ascii_upper ends_at_once ["make_img.py"; "glider"]%string) = 0 ∧
  state (main ascii_upper ends_at_once ["make_img.py"; "glider"]%string) = None ∧
  files (main ascii_upper ends_at_once ["make_img.py"; "glider"]%string) = [].
Proof.
  assert (Hbad : length ["make_img.py"; "glider"]%string ≠ 2%nat ∨
            ascii_upper (nth 1 ["make_img.py"; "glider"]%string EmptyString)
              ∉ valid_patterns).
  { right. simpl. unfold valid_patterns. intros Hin.
    repeat (apply elem_of_cons in Hin as [Hin | Hin]; [discriminate Hin|]).
    by apply elem_of_nil in Hin. }
  split; [exact Hbad|].
  exact (usage_error ascii_upper ends_at_once ["make_img.py"; "glider"]%string Hbad).
Defined.

(** ** Seeding *)

(** Seeding the grid at row -1: the index is outside the grid, and yet
    nothing is raised; the cell in the last row is set. *)
Lemma seed_minus_one_wraps :
  ¬ (0 <= -1 < Z.of_nat GRID_SIZE) ∧
  bake [(-1, 0)] (zeros GRID_SIZE GRID_SIZE) ≠ None ∧
  (bake [(-1, 0)] (zeros GRID_SIZE GRID_SIZE) ≫= λ g, cell g 99 0) = Some 1.
Proof. split; [lia|]. split; [by vm_compute|by vm_compute]. Qed.

Lemma bake_one g i j : bake [(i, j)] g = setitem2 g i j 1.
Proof. simpl. by destruct (setitem2 g i j 1). Qed.

(** C8, as the program has it.  On an [H] by [W] grid, seeding at
    [(i, j)] raises exactly when [i] is outside [-H <= i < H] or [j]
    outside [-W <= j < W].  Seeding at [(0, 0)] and at [(H-1, W-1)]
    succeeds and sets those cells ALIVE; seeding at [(H, 0)] raises;
    seeding at [(-1, 0)] does not raise: a negative index counts from
    the end, and the cell set ALIVE is [(H-1, 0)]. *)
Theorem seed_bounds H W (g : array2) (i j : Z) :
  shape H W g →
  (bake [(i, j)] g = None ↔
     ¬ (- Z.of_nat H <= i < Z.of_nat H ∧ - Z.of_nat W <= j < Z.of_nat W)) ∧
  bake [(Z.of_nat H, 0)] g = None ∧
  ((0 < H)%nat → (0 < W)%nat →
   (bake [(0, 0)] g ≫= λ g', cell g' 0 0) = Some 1 ∧
   (bake [(Z.of_nat H - 1, Z.of_nat W - 1)] g ≫= λ g', cell g' (H - 1) (W - 1)) = Some 1 ∧
   (bake [(-1, 0)] g ≫= λ g', cell g' (H - 1) 0) = Some 1).
Proof.
  intros Hs. rewrite !bake_one. split; [|split].
  - split.
    + intros Hnone Hin.
      destruct (setitem2_Some H W g i j 1 Hs) as (g' & Hg' & _); [lia..|]. congruence.
    + by apply setitem2_None.
  - apply (setitem2_None H W); [done|lia].
  - intros HH HW.
    destruct (setitem2_Some H W g 0 0 1 Hs) as (g1 & -> & _ & H1); [lia..|].
    destruct (setitem2_Some H W g (Z.of_nat H - 1) (Z.of_nat W - 1) 1 Hs)
      as (g2 & -> & _ & H2); [lia..|].
    destruct (setitem2_Some H W g (-1) 0 1 Hs) as (g3 & -> & _ & H3); [lia..|].
    simpl. rewrite Z.mod_0_l in H1, H3 by lia.
    rewrite !Z.mod_small in H2 by lia.
    rewrite <- (Z.mod_unique (-1) (Z.of_nat H) (-1) (Z.of_nat H - 1)) in H3 by lia.
    replace (Z.to_nat (Z.of_nat H - 1)) with (H - 1)%nat in * by lia.
    replace (Z.to_nat (Z.of_nat W - 1)) with (W - 1)%nat in * by lia.
    done.
Qed.

Lemma seed_bounds_witness :
  shape 3 3 corner3 ∧
  (bake [(5, 0)] corner3 = None ↔
     ¬ (- Z.of_nat 3 <= 5 < Z.of_nat 3 ∧ - Z.of_nat 3 <= 0 < Z.of_nat 3)) ∧
  bake [(Z.of_nat 3, 0)] corner3 = None ∧
  ((0 < 3)%nat → (0 < 3)%nat →
   (bake [(0, 0)] corner3 ≫= λ g', cell g' 0 0) = Some 1 ∧
   (bake [(Z.of_nat 3 - 1, Z.of_nat 3 - 1)] corner3 ≫= λ g', cell g' (3 - 1) (3 - 1)) = Some 1 ∧
   (bake [(-1, 0)] corner3 ≫= λ g', cell g' (3 - 1) 0) = Some 1).
Proof.
  assert (Hs : shape 3 3 corner3) by shape_tac.
  split; [exact Hs|].
  exact (seed_bounds 3 3 corner3 5 0 Hs).
Defined.

(** Seeding with a list of coordinates that are all inside the grid
    never raises, and keeps the shape. *)
Lemma bake_in_bounds H W (cells : list (Z * Z)) : ∀ g,
  shape H W g →
  Forall (λ p, 0 <= p.1 < Z.of_nat H ∧ 0 <= p.2 < Z.of_nat W) cells →
  ∃ g', bake cells g = Some g' ∧ shape H W g'.
Proof.
  induction cells as [|[i j] cells IH]; intros g Hs Hall.
  - by exists g.
  - apply Forall_cons_1 in Hall as [[Hi Hj] Hall]. simpl in Hi, Hj.
    destruct (setitem2_Some H W g i j 1 Hs) as (g1 & Hset & Hs1 & _); [lia..|].
    simpl. rewrite Hset. simpl. by apply IH.
Qed.

Lemma shape_zeros H W : shape H W (zeros H W).
Proof.
  unfold zeros. split; [by rewrite length_replicate|].
  apply Forall_replicate. by rewrite length_replicate.
Qed.

Lemma shuttle_cells_in_grid : Forall in_grid shuttle_cells.
Proof.
  unfold shuttle_cells, in_grid, GRID_SIZE.
  repeat (apply Forall_cons_2; [simpl; lia|]). apply Forall_nil_2.
Qed.

Lemma brain_cells_in_grid : Forall in_grid brain_cells.
Proof.
  unfold brain_cells, in_grid, GRID_SIZE.
  repeat (apply Forall_cons_2; [simpl; lia|]). apply Forall_nil_2.
Qed.

(** C10. Every coordinate of the two pattern lists has its row and its
    column in [0, 100), so seeding the 100 by 100 grid with either
    pattern stays inside the grid: no index is negative, none is
    reduced from the end, and nothing is raised. *)
Theorem patterns_in_bounds :
  Forall in_grid shuttle_cells ∧
  Forall in_grid brain_cells ∧
  (∃ g, bake shuttle_cells (zeros GRID_SIZE GRID_SIZE) = Some g ∧
        shape GRID_SIZE GRID_SIZE g) ∧
  (∃ g, bake brain_cells (zeros GRID_SIZE GRID_SIZE) = Some g ∧
        shape GRID_SIZE GRID_SIZE g).
Proof.
  split; [apply shuttle_cells_in_grid|]. split; [apply brain_cells_in_grid|].
  split; apply bake_in_bounds;
    first [apply shape_zeros | apply shuttle_cells_in_grid | apply brain_cells_in_grid].
Qed.

(** ** The frame loop *)

Lemma length_range n : length (range n) = n.
Proof. unfold range. by rewrite length_fmap, length_seq. Qed.


(** What making and saving the animation does, call by call. *)
Lemma save_spec H W (F : nat) (g0 shown : array2) :
  shape H W g0 → binary g0 → (0 < F)%nat →
  ∃ w, make_and_save true F (start g0 shown) = Some w ∧
       calls w = [0; 0; 0] ++ range F ∧
       length (calls w) = (F + 3)%nat ∧
       length (grabbed w) = F ∧
       (∀ k, (k < F)%nat → grabbed w !! k = generation (k + 4) g0) ∧
       generation (F + 3) g0 = Some (grid w).
Proof.
  intros Hs Hb HF. destruct F as [|F']; [lia|].
  destruct (step_total H W g0 Hs Hb) as (g1 & Hstep1 & Hs1 & Hb1).
  destruct (step_total H W g1 Hs1 Hb1) as (g2 & Hstep2 & Hs2 & Hb2).
  destruct (step_total H W g2 Hs2 Hb2) as (g3 & Hstep3 & Hs3 & Hb3).
  assert (Hgen3 : generation 3 g0 = Some g3).
  { cbn [generation]. rewrite Hstep1. cbn [mbind option_bind].
    rewrite Hstep2. cbn [mbind option_bind]. by rewrite Hstep3. }
  unfold make_and_save, FuncAnimation, save. cbn [init_draw].
  rewrite (animate_life_Some 0 (start g0 shown) g1) by exact Hstep1.
  cbn [mbind option_bind].
  rewrite (animate_life_Some 0 _ g2) by exact Hstep2. cbn [mbind option_bind].
  rewrite (animate_life_Some 0 _ g3) by exact Hstep3. cbn [mbind option_bind].
  destruct (draw_frames_spec H W (range (S F'))
              {| grid := g3; im := g3;
                 calls := ((calls (start g0 shown) ++ [0]) ++ [0]) ++ [0];
                 grabbed := grabbed (start g0 shown) |} Hs3 Hb3)
    as (w & fs & Hdraw & Hcalls & Hgen & Hgrab & Hlen & Hfs).
  cbn [grid calls grabbed start] in *. rewrite Hdraw. cbn [mbind option_bind].
  rewrite length_range in *.
  exists w. split; [done|]. split; [exact Hcalls|]. split.
  { rewrite Hcalls. cbn [app length]. rewrite length_range. lia. }
  split; [by rewrite Hgrab|]. split.
  - intros k Hk. rewrite Hgrab. cbn [app]. rewrite (Hfs k Hk).
    replace (k + 4)%nat with (3 + S k)%nat by lia.
    by rewrite generation_add, Hgen3.
  - replace (S F' + 3)%nat with (3 + S F')%nat by lia.
    by rewrite generation_add, Hgen3.
Qed.



(** ** Seeded grids *)

Lemma binary_zeros H W : binary (zeros H W).
Proof.
  unfold binary, zeros. apply Forall_replicate, Forall_replicate. by left.
Qed.


(** * More of the program *)

(** ** Translations of the torus *)

Section translation.

Implicit Types (g : array2) (H W r c : nat) (s : Z).

Lemma Forall_roll_axis {A} (P : A → Prop) s (l : list A) :
  Forall P l → Forall P (roll_axis s l).
Proof.
  intros Hl. unfold roll_axis. case_decide; [done|].
  apply Forall_app. split; [by apply Forall_drop|by apply Forall_take].
Qed.

Lemma binary_roll g s ax : binary g → binary (roll g s ax).
Proof.
  unfold binary. intros Hb. destruct ax; simpl.
  - by apply Forall_roll_axis.
  - apply Forall_fmap. eapply Forall_impl; [done|]. simpl.
    intros row Hrow. by apply Forall_roll_axis.
Qed.

(** Stepping back by [s] and moving on by [d] commute around an axis. *)
Lemma back_wrap n s i d :
  (0 < n)%nat →
  back n s (Z.to_nat ((Z.of_nat i + d) `mod` Z.of_nat n)) =
    Z.to_nat ((Z.of_nat (back n s i) + d) `mod` Z.of_nat n).
Proof.
  intros Hn. unfold back.
  rewrite !Z2Nat.id by (apply Z.mod_pos_bound; lia). f_equal.
  rewrite Zminus_mod_idemp_l, Zplus_mod_idemp_l. f_equal. lia.
Qed.

Lemma get_roll0 H W g s r c :
  shape H W g → (r < H)%nat →
  Ref.get (roll g s Axis0) (r, c) = Ref.get g (back H s r, c).
Proof. intros Hs Hr. unfold Ref.get. cbn [fst snd]. by rewrite (cell_roll0 H W). Qed.

Lemma get_roll1 H W g s r c :
  shape H W g → (c < W)%nat →
  Ref.get (roll g s Axis1) (r, c) = Ref.get g (r, back W s c).
Proof. intros Hs Hc. unfold Ref.get. cbn [fst snd]. by rewrite (cell_roll1 H W). Qed.

Lemma neighbor_count_roll0 H W g s r c :
  shape H W g → (r < H)%nat → (c < W)%nat →
  Ref.neighbor_count H W (roll g s Axis0) r c =
    Ref.neighbor_count H W g (back H s r) c.
Proof.
  intros Hs Hr Hc. unfold Ref.neighbor_count, Ref.moore_cells, Ref.moore_offsets.
  cbn [fmap list_fmap fst snd].
  rewrite !(get_roll0 H W) by (done || apply wrap_lt; lia).
  by rewrite !back_wrap by lia.
Qed.

Lemma neighbor_count_roll1 H W g s r c :
  shape H W g → (r < H)%nat → (c < W)%nat →
  Ref.neighbor_count H W (roll g s Axis1) r c =
    Ref.neighbor_count H W g r (back W s c).
Proof.
  intros Hs Hr Hc. unfold Ref.neighbor_count, Ref.moore_cells, Ref.moore_offsets.
  cbn [fmap list_fmap fst snd].
  rewrite !(get_roll1 H W) by (done || apply wrap_lt; lia).
  by rewrite !back_wrap by lia.
Qed.

(** The synchronous step of a rolled grid is the rolled synchronous
    step. *)
Lemma sync_step_roll H W g s ax :
  shape H W g →
  Ref.sync_step H W (roll g s ax) = roll (Ref.sync_step H W g) s ax.
Proof.
  intros Hs. apply (array2_eq H W);
    [apply shape_sync_step|apply shape_roll, shape_sync_step|].
  intros r c Hr Hc. rewrite cell_sync_step by done. destruct ax.
  - rewrite (cell_roll0 H W) by (done || apply shape_sync_step).
    rewrite cell_sync_step by (done || apply back_lt; lia).
    by rewrite (get_roll0 H W), (neighbor_count_roll0 H W).
  - rewrite (cell_roll1 H W) by (done || apply shape_sync_step).
    rewrite cell_sync_step by (done || apply back_lt; lia).
    by rewrite (get_roll1 H W), (neighbor_count_roll1 H W).
Qed.

Lemma step_roll H W g s ax :
  shape H W g → binary g →
  step (roll g s ax) = (λ g', roll g' s ax) <$> step g.
Proof.
  intros Hs Hb.
  rewrite (step_sync_step H W (roll g s ax))
    by (by apply shape_roll || by apply binary_roll).
  rewrite (step_sync_step H W g) by done. simpl. f_equal. by apply sync_step_roll.
Qed.

(** Rolling twice is rolling by the sum; rolling by a multiple of the
    length changes nothing; rolling rows and rolling within rows
    commute. *)
Lemma roll_axis_add {A} s t (l : list A) :
  roll_axis s (roll_axis t l) = roll_axis (s + t) l.
Proof.
  apply list_eq. intros i. destruct (decide (i < length l)%nat) as [Hi|Hi].
  - assert (Hn : 0 < Z.of_nat (length l)) by lia.
    rewrite lookup_roll_axis by (by rewrite length_roll_axis).
    rewrite length_roll_axis.
    rewrite lookup_roll_axis
      by (pose proof (Z.mod_pos_bound (Z.of_nat i - s) (Z.of_nat (length l)) Hn); lia).
    rewrite lookup_roll_axis by done. do 2 f_equal.
    rewrite Z2Nat.id by (apply Z.mod_pos_bound; lia).
    rewrite Zminus_mod_idemp_l. f_equal. lia.
  - rewrite !lookup_ge_None_2; [done|..]; rewrite ?length_roll_axis; lia.
Qed.

Lemma roll_axis_full {A} (q : Z) (l : list A) :
  roll_axis (q * Z.of_nat (length l)) l = l.
Proof.
  unfold roll_axis. case_decide; [done|].
  rewrite Z_mod_mult. simpl. rewrite Nat.sub_0_r, drop_all, firstn_all. done.
Qed.

Lemma roll_axis_fmap {A B} (f : A → B) s (l : list A) :
  roll_axis s (f <$> l) = f <$> roll_axis s l.
Proof.
  unfold roll_axis. rewrite length_fmap. case_decide; [done|].
  by rewrite fmap_app, fmap_drop, fmap_take.
Qed.

Lemma roll_add g s t ax : roll (roll g t ax) s ax = roll g (s + t) ax.
Proof.
  destruct ax; simpl; [apply roll_axis_add|].
  rewrite <- list_fmap_compose. apply list_fmap_ext. intros i row _. simpl.
  apply roll_axis_add.
Qed.

Lemma roll_comm g s t :
  roll (roll g s Axis1) t Axis0 = roll (roll g t Axis0) s Axis1.
Proof. simpl. apply roll_axis_fmap. Qed.

Lemma roll_full H W g q ax :
  shape H W g →
  roll g (q * Z.of_nat (match ax with Axis0 => H | Axis1 => W end)) ax = g.
Proof.
  intros [Hlen Hall]. destruct ax; simpl.
  - rewrite <- Hlen. apply roll_axis_full.
  - rewrite <- (list_fmap_id g) at 2. apply list_fmap_ext. intros i row Hrow.
    rewrite Forall_lookup in Hall. rewrite <- (Hall i row Hrow). apply roll_axis_full.
Qed.

(** *** Shifts *)

Lemma shape_shift H W g dr dc : shape H W g → shape H W (shift g dr dc).
Proof. intros Hs. unfold shift. by do 2 apply shape_roll. Qed.

Lemma binary_shift g dr dc : binary g → binary (shift g dr dc).
Proof. intros Hb. unfold shift. by do 2 apply binary_roll. Qed.

Lemma shift_add g (a b a' b' : Z) :
  shift (shift g a b) a' b' = shift g (a' + a) (b' + b).
Proof.
  unfold shift. rewrite (roll_comm (roll g a Axis0) b a').
  by rewrite !roll_add.
Qed.

Lemma shift_full H W g q1 q2 :
  shape H W g → shift g (q1 * Z.of_nat H) (q2 * Z.of_nat W) = g.
Proof.
  intros Hs. unfold shift.
  rewrite (roll_full H W g q1 Axis0 Hs). apply (roll_full H W g q2 Axis1 Hs).
Qed.

Lemma step_shift H W g dr dc :
  shape H W g → binary g →
  step (shift g dr dc) = (λ g', shift g' dr dc) <$> step g.
Proof.
  intros Hs Hb. unfold shift.
  rewrite (step_roll H W) by (by apply shape_roll || by apply binary_roll).
  rewrite (step_roll H W) by done. by destruct (step g).
Qed.

End translation.

(** ** Runs of several steps *)

Section runs.

Implicit Types (g : array2) (H W k : nat) (s : Z).

Lemma generation_shift H W k dr dc : ∀ g,
  shape H W g → binary g →
  generation k (shift g dr dc) = (λ g', shift g' dr dc) <$> generation k g.
Proof.
  induction k as [|k IH]; intros g Hs Hb; simpl; [done|].
  rewrite (step_shift H W) by done.
  destruct (step_total H W g Hs Hb) as (g1 & -> & Hs1 & Hb1). simpl. by apply IH.
Qed.

(** A pattern that reappears shifted after [p] steps reappears shifted
    [k] times as far after [k * p] steps. *)
Lemma glide H W p dr dc g k :
  shape H W g → binary g →
  generation p g = Some (shift g dr dc) →
  generation (k * p) g = Some (shift g (Z.of_nat k * dr) (Z.of_nat k * dc)).
Proof.
  intros Hs Hb Hp. induction k as [|k IH].
  - simpl. f_equal. symmetry. apply (shift_full H W g 0 0 Hs).
  - replace (S k * p)%nat with (p + k * p)%nat by lia.
    rewrite generation_add, Hp. simpl.
    rewrite (generation_shift H W) by done. rewrite IH. simpl.
    rewrite shift_add. do 2 f_equal; lia.
Qed.


End runs.
(** ** More on seeding *)

Section seeding_more.

Implicit Types (g : array2) (H W r c : nat) (i j v : Z).

(** One assignment inside the grid changes the cell it names and no
    other. *)
Lemma setitem2_cell H W g i j v :
  shape H W g → 0 <= i < Z.of_nat H → 0 <= j < Z.of_nat W →
  ∃ g', setitem2 g i j v = Some g' ∧ shape H W g' ∧
        ∀ r c, cell g' r c =
               if decide (Z.of_nat r = i ∧ Z.of_nat c = j) then Some v else cell g r c.
Proof.
  intros Hs Hi Hj. pose proof Hs as [Hlen Hall]. unfold setitem2.
  rewrite Hlen, (norm_index_Some H i), (Z.mod_small i) by lia. simpl.
  destruct (lookup_lt_is_Some_2 g (Z.to_nat i)) as [row Hrow]; [lia|].
  rewrite Hrow. simpl. pose proof (shape_row _ _ _ _ _ Hs Hrow) as Hw.
  rewrite Hw, (norm_index_Some W j), (Z.mod_small j) by lia. simpl.
  eexists. split; [done|]. split; [split|].
  - by rewrite length_insert.
  - apply Forall_insert; [done|]. by rewrite length_insert.
  - intros r c. unfold cell. destruct (decide (r = Z.to_nat i)) as [->|Hr].
    + rewrite list_lookup_insert_eq, Hrow by lia. simpl.
      destruct (decide (c = Z.to_nat j)) as [->|Hc].
      * rewrite list_lookup_insert_eq by lia. rewrite decide_True by lia. done.
      * rewrite list_lookup_insert_ne by done. rewrite decide_False by lia. done.
    + rewrite list_lookup_insert_ne by done. rewrite decide_False by lia. done.
Qed.

(** Seeding with coordinates inside the grid sets the listed cells and
    leaves the others. *)
Lemma bake_cells H W (cells : list (Z * Z)) : ∀ g,
  shape H W g →
  Forall (λ p, 0 <= p.1 < Z.of_nat H ∧ 0 <= p.2 < Z.of_nat W) cells →
  ∃ g', bake cells g = Some g' ∧ shape H W g' ∧
        ∀ r c, cell g' r c =
               if decide ((Z.of_nat r, Z.of_nat c) ∈ cells) then Some 1 else cell g r c.
Proof.
  induction cells as [|[i j] cells IH]; intros g Hs Hall.
  - exists g. split; [done|]. split; [done|]. intros r c.
    rewrite decide_False; [done|]. apply not_elem_of_nil.
  - apply Forall_cons_1 in Hall as [[Hi Hj] Hall]. simpl in Hi, Hj.
    destruct (setitem2_cell H W g i j 1 Hs Hi Hj) as (g1 & Hset & Hs1 & Hg1).
    destruct (IH g1 Hs1 Hall) as (g' & Hbake & Hs' & Hg').
    exists g'. simpl. rewrite Hset. simpl. split; [done|]. split; [done|].
    intros r c. rewrite Hg', Hg1.
    destruct (decide ((Z.of_nat r, Z.of_nat c) ∈ cells)) as [Hin|Hout].
    + rewrite decide_True; [done|]. by apply list_elem_of_further.
    + destruct (decide (Z.of_nat r = i ∧ Z.of_nat c = j)) as [[<- <-]|Hne].
      * rewrite decide_True; [done|]. apply list_elem_of_here.
      * rewrite decide_False; [done|]. intros [[= <- <-]|Hin]%elem_of_cons; tauto.
Qed.

(** Seeding raises exactly when some coordinate of the list is out of
    numpy's index range. *)
Lemma bake_None H W (cells : list (Z * Z)) : ∀ g,
  shape H W g →
  (bake cells g = None ↔
   Exists (λ p, ¬ (- Z.of_nat H <= p.1 < Z.of_nat H ∧
                   - Z.of_nat W <= p.2 < Z.of_nat W)) cells).
Proof.
  induction cells as [|[i j] cells IH]; intros g Hs.
  - simpl. split; [done|]. by intros ?%Exists_nil.
  - simpl. rewrite Exists_cons. simpl.
    destruct (decide (- Z.of_nat H <= i < Z.of_nat H ∧ - Z.of_nat W <= j < Z.of_nat W))
      as [[Hi Hj]|Hout].
    + destruct (setitem2_Some H W g i j 1 Hs Hi Hj) as (g1 & -> & Hs1 & _). simpl.
      rewrite (IH g1 Hs1). tauto.
    + rewrite (setitem2_None H W g i j 1 Hs Hout). simpl. tauto.
Qed.

End seeding_more.

(** ** The dead grid and grids the table cannot index *)

Section edge.

Implicit Types (g : array2) (H W r c : nat).

Lemma get_zeros H W p : Ref.get (zeros H W) p = 0.
Proof.
  unfold Ref.get, cell, zeros.
  destruct (replicate H (replicate W 0) !! p.1) as [row|] eqn:Hrow; simpl; [|done].
  apply lookup_replicate in Hrow as [-> _].
  destruct (replicate W 0 !! p.2) as [v|] eqn:Hv; simpl; [|done].
  by apply lookup_replicate in Hv as [-> _].
Qed.

Lemma step_zeros H W : step (zeros H W) = Some (zeros H W).
Proof.
  rewrite (step_sync_step H W) by (apply shape_zeros || apply binary_zeros).
  f_equal. apply (array2_eq H W); [apply shape_sync_step|apply shape_zeros|].
  intros r c Hr Hc. rewrite cell_sync_step by done.
  unfold Ref.neighbor_count, Ref.moore_cells, Ref.moore_offsets.
  cbn [fmap list_fmap]. rewrite !get_zeros.
  unfold cell, zeros. rewrite lookup_replicate_2 by done. simpl.
  by rewrite lookup_replicate_2.
Qed.

Lemma take2_cell t a b res r c x y :
  take2 t a b = Some res → cell a r c = Some x → cell b r c = Some y →
  is_Some (item2 t x y).
Proof.
  unfold take2, cell. intros Hres Hx Hy.
  destruct (a !! r) as [ra|] eqn:Hra; [|done].
  destruct (b !! r) as [rb|] eqn:Hrb; [|done]. simpl in Hx, Hy.
  apply mapM_Some in Hres.
  destruct (Forall2_lookup_l _ _ _ r (ra, rb) Hres) as (row & _ & Hrowres).
  { apply lookup_zip_with_Some. by exists ra, rb. }
  simpl in Hrowres. apply mapM_Some in Hrowres.
  destruct (Forall2_lookup_l _ _ _ c (x, y) Hrowres) as (v & _ & Hv).
  { apply lookup_zip_with_Some. by exists x, y. }
  simpl in Hv. by exists v.
Qed.

End edge.

(** ** More on the command line *)

Lemma upper_ascii_idemp c : upper_ascii (upper_ascii c) = upper_ascii c.
Proof. destruct c as [[] [] [] [] [] [] [] []]; reflexivity. Qed.

Lemma ascii_upper_idemp s : ascii_upper (ascii_upper s) = ascii_upper s.
Proof.
  induction s as [|c s IH]; simpl; [done|]. by rewrite upper_ascii_idemp, IH.
Qed.

Lemma upper_ascii_lt c :
  (nat_of_ascii c < 128)%nat → (nat_of_ascii (upper_ascii c) < 128)%nat.
Proof.
  destruct c as [[] [] [] [] [] [] [] []]; vm_compute; intros Hc;
    first [exact Hc | lia].
Qed.

Lemma is_ascii_upper s : is_ascii s → is_ascii (ascii_upper s).
Proof.
  induction s as [|c s IH]; simpl; [done|].
  intros [Hc Hs]. split; [by apply upper_ascii_lt|by apply IH].
Qed.

(** ** The run of a pattern *)

(** *** The Brain *)





(** * Further properties *)

(** X1. The evolution commutes with translations of the torus: on an
    [H] by [W] grid of zeros and ones, stepping the grid shifted by
    [dr] rows and [dc] columns (with wrap-around) gives the shifted
    step, and so for any number of steps. *)
Theorem evolution_commutes_with_shift H W (k : nat) (dr dc : Z) (g : array2) :
  shape H W g → binary g →
  step (shift g dr dc) = (λ g', shift g' dr dc) <$> step g ∧
  generation k (shift g dr dc) = (λ g', shift g' dr dc) <$> generation k g.
Proof.
  intros Hs Hb. split; [by apply (step_shift H W)|by apply (generation_shift H W)].
Qed.

Lemma evolution_commutes_with_shift_witness :
  shape 5 5 glider5 ∧ binary glider5 ∧
  step (shift glider5 1 (-2)) = (λ g', shift g' 1 (-2)) <$> step glider5 ∧
  generation 3 (shift glider5 1 (-2)) = (λ g', shift g' 1 (-2)) <$> generation 3 glider5.
Proof.
  assert (Hs : shape 5 5 glider5) by shape_tac.
  assert (Hb : binary glider5) by binary_tac.
  split; [exact Hs|]. split; [exact Hb|].
  exact (evolution_commutes_with_shift 5 5 3 1 (-2) glider5 Hs Hb).
Defined.

(** X2. A pattern that reappears shifted by [(dr, dc)] after [p] steps
    is back where it started after [k * p] steps, as soon as [k * dr]
    is a multiple of the height and [k * dc] a multiple of the width. *)
Theorem glide_returns H W (p k : nat) (dr dc : Z) (g : array2) :
  shape H W g → binary g →
  generation p g = Some (shift g dr dc) →
  (Z.of_nat k * dr) `mod` Z.of_nat H = 0 →
  (Z.of_nat k * dc) `mod` Z.of_nat W = 0 →
  generation (k * p) g = Some g.
Proof.
  intros Hs Hb Hp Hr Hc. rewrite (glide H W p dr dc g k Hs Hb Hp). f_equal.
  pose proof (Z_div_mod_eq_full (Z.of_nat k * dr) (Z.of_nat H)) as Er.
  pose proof (Z_div_mod_eq_full (Z.of_nat k * dc) (Z.of_nat W)) as Ec.
  rewrite Hr in Er. rewrite Hc in Ec.
  replace (Z.of_nat k * dr) with ((Z.of_nat k * dr) `div` Z.of_nat H * Z.of_nat H) by lia.
  replace (Z.of_nat k * dc) with ((Z.of_nat k * dc) `div` Z.of_nat W * Z.of_nat W) by lia.
  by apply shift_full.
Qed.

Lemma glide_returns_witness :
  shape 5 5 glider5 ∧ binary glider5 ∧
  generation 4 glider5 = Some (shift glider5 1 1) ∧
  (Z.of_nat 5 * 1) `mod` Z.of_nat 5 = 0 ∧
  generation (5 * 4) glider5 = Some glider5.
Proof.
  assert (Hs : shape 5 5 glider5) by shape_tac.
  assert (Hb : binary glider5) by binary_tac.
  assert (Hp : generation 4 glider5 = Some (shift glider5 1 1)) by (vm_compute; reflexivity).
  assert (Hm : (Z.of_nat 5 * 1) `mod` Z.of_nat 5 = 0) by reflexivity.
  split; [exact Hs|]. split; [exact Hb|]. split; [exact Hp|]. split; [exact Hm|].
  exact (glide_returns 5 5 4 5 1 1 glider5 Hs Hb Hp Hm Hm).
Defined.

(** X3. The dead grid stays dead: a grid of zeros of any size, also an
    empty one, is unchanged by any number of steps. *)
Theorem dead_grid_stays_dead H W (k : nat) :
  generation k (zeros H W) = Some (zeros H W).
Proof.
  induction k as [|k IH]; simpl; [done|]. by rewrite step_zeros.
Qed.

(** X4. The step raises as soon as one cell of the grid holds a value
    the rule table has no row for, that is a value outside
    [-2 <= v < 2]. *)
Theorem step_raises_outside_table H W (g : array2) (r c : nat) (v : Z) :
  shape H W g → cell g r c = Some v → ¬ (-2 <= v < 2) →
  step g = None.
Proof.
  intros Hs Hv Hout. destruct (step g) as [g'|] eqn:Hstep; [exfalso|done].
  destruct (cell_Some_lt H W g r c v Hs Hv) as [Hr Hc].
  destruct (shape_cell H W (num_neighbors g) r c (shape_num_neighbors H W g Hs) Hr Hc)
    as [n Hn].
  destruct (take2_cell rules g (num_neighbors g) g' r c v n Hstep Hv Hn) as [x Hx].
  unfold item2 in Hx. rewrite (norm_index_None (length rules) v) in Hx; [done|].
  simpl. lia.
Qed.

Lemma step_raises_outside_table_witness :
  shape 2 2 stray2 ∧ cell stray2 1 1 = Some 2 ∧ ¬ (-2 <= 2 < 2) ∧
  step stray2 = None.
Proof.
  assert (Hs : shape 2 2 stray2) by shape_tac.
  assert (Hv : cell stray2 1 1 = Some 2) by reflexivity.
  assert (Hout : ¬ (-2 <= 2 < 2)) by lia.
  split; [exact Hs|]. split; [exact Hv|]. split; [exact Hout|].
  exact (step_raises_outside_table 2 2 stray2 1 1 2 Hs Hv Hout).
Defined.

(** X5. Seeding with coordinates inside the grid sets exactly the
    listed cells to 1 and leaves every other cell as it was; so two
    lists with the same members, in whatever order and however often
    repeated, seed the same grid. *)
Theorem bake_sets_exactly H W (cells : list (Z * Z)) (g : array2) :
  shape H W g →
  Forall (λ p, 0 <= p.1 < Z.of_nat H ∧ 0 <= p.2 < Z.of_nat W) cells →
  (∃ g', bake cells g = Some g' ∧ shape H W g' ∧
         ∀ r c, cell g' r c =
                if decide ((Z.of_nat r, Z.of_nat c) ∈ cells) then Some 1
                else cell g r c) ∧
  (∀ cells', (∀ p, p ∈ cells' ↔ p ∈ cells) → bake cells' g = bake cells g).
Proof.
  intros Hs Hall. split; [by apply bake_cells|].
  intros cells' Hsame.
  assert (Hall' : Forall (λ p, 0 <= p.1 < Z.of_nat H ∧ 0 <= p.2 < Z.of_nat W) cells').
  { rewrite Forall_forall in Hall. apply Forall_forall. intros p Hp.
    apply Hall. by apply Hsame. }
  destruct (bake_cells H W cells g Hs Hall) as (g1 & -> & Hs1 & Hg1).
  destruct (bake_cells H W cells' g Hs Hall') as (g2 & -> & Hs2 & Hg2).
  f_equal. apply (array2_eq H W); [done..|].
  intros r c _ _. rewrite Hg1, Hg2.
  destruct (decide ((Z.of_nat r, Z.of_nat c) ∈ cells)) as [Hin|Hout].
  - rewrite decide_True; [done|]. by apply Hsame.
  - rewrite decide_False; [done|]. intros Hin. by apply Hout, Hsame.
Qed.

Lemma bake_sets_exactly_witness :
  shape 3 3 corner3 ∧
  Forall (λ p, 0 <= p.1 < Z.of_nat 3 ∧ 0 <= p.2 < Z.of_nat 3) [(1, 1); (2, 0); (1, 1)] ∧
  (∃ g', bake [(1, 1); (2, 0); (1, 1)] corner3 = Some g' ∧ shape 3 3 g' ∧
         ∀ r c, cell g' r c =
                if decide ((Z.of_nat r, Z.of_nat c) ∈ [(1, 1); (2, 0); (1, 1)])
                then Some 1 else cell corner3 r c) ∧
  (∀ cells', (∀ p, p ∈ cells' ↔ p ∈ [(1, 1); (2, 0); (1, 1)]) →
             bake cells' corner3 = bake [(1, 1); (2, 0); (1, 1)] corner3).
Proof.
  assert (Hs : shape 3 3 corner3) by shape_tac.
  assert (Hall : Forall (λ p, 0 <= p.1 < Z.of_nat 3 ∧ 0 <= p.2 < Z.of_nat 3)
                   [(1, 1); (2, 0); (1, 1)]).
  { repeat (apply Forall_cons_2; [simpl; lia|]). apply Forall_nil_2. }
  split; [exact Hs|]. split; [exact Hall|].
  exact (bake_sets_exactly 3 3 [(1, 1); (2, 0); (1, 1)] corner3 Hs Hall).
Defined.

(** X6. Seeding a whole list raises exactly when some coordinate of
    the list has its row outside [-H <= i < H] or its column outside
    [-W <= j < W]. *)
Theorem bake_raises_iff H W (cells : list (Z * Z)) (g : array2) :
  shape H W g →
  (bake cells g = None ↔
   Exists (λ p, ¬ (- Z.of_nat H <= p.1 < Z.of_nat H ∧
                   - Z.of_nat W <= p.2 < Z.of_nat W)) cells).
Proof. intros Hs. by apply bake_None. Qed.

Lemma bake_raises_iff_witness :
  shape 3 3 corner3 ∧
  (bake [(0, 0); (3, 1)] corner3 = None ↔
   Exists (λ p, ¬ (- Z.of_nat 3 <= p.1 < Z.of_nat 3 ∧
                   - Z.of_nat 3 <= p.2 < Z.of_nat 3)) [(0, 0); (3, 1)]).
Proof.
  assert (Hs : shape 3 3 corner3) by shape_tac.
  split; [exact Hs|].
  exact (bake_raises_iff 3 3 [(0, 0); (3, 1)] corner3 Hs).
Defined.

(** X7. For an argument of ASCII characters, on which [str.upper] is
    the ASCII upper case, the pattern is read without regard to case,
    and the program's own name plays no part: the run with an argument
    is the run with that argument in upper case, under any program
    name and whatever the rest of the program does. *)
Theorem main_ignores_case (upper : string → string) (rest : string → process)
    (prog prog' name : string) :
  (∀ s, is_ascii s → upper s = ascii_upper s) →
  is_ascii name →
  main upper rest [prog; name] = main upper rest [prog'; ascii_upper name].
Proof.
  intros Hupper Hname. unfold main. cbn [length nth].
  rewrite (Hupper name Hname).
  rewrite (Hupper (ascii_upper name) (is_ascii_upper name Hname)).
  rewrite ascii_upper_idemp. reflexivity.
Qed.

Lemma main_ignores_case_witness :
  (∀ s, is_ascii s → ascii_upper s = ascii_upper s) ∧
  is_ascii "Brain" ∧
  main ascii_upper ends_at_once ["make_img.py"; "Brain"]%string =
    main ascii_upper ends_at_once ["./make_img.py"; ascii_upper "Brain"]%string.
Proof.
  assert (Hupper : ∀ s, is_ascii s → ascii_upper s = ascii_upper s) by reflexivity.
  assert (Hname : is_ascii "Brain") by (vm_compute; repeat split; lia).
  split; [exact Hupper|]. split; [exact Hname|].
  exact (main_ignores_case ascii_upper ends_at_once "make_img.py" "./make_img.py"
           "Brain" Hupper Hname).
Defined.

Lemma make_and_save_Some (writer_ok : bool) (F : nat) (w0 w : world) :
  make_and_save writer_ok F w0 = Some w → (0 < F)%nat ∧ writer_ok = true.
Proof.
  unfold make_and_save, save.
  destruct (FuncAnimation F w0) as [w1|]; cbn [mbind option_bind]; [|done].
  destruct (init_draw F w1) as [w2|]; cbn [mbind option_bind]; [|done].
  destruct (draw_frames (range F) w2) as [w3|]; cbn [mbind option_bind]; [|done].
  destruct F as [|F']; [done|]. destruct writer_ok; [|done].
  intros _. split; [lia|done].
Qed.

(** X10. Whenever making and saving the animation returns, which
    takes at least one frame and a writer that does its work, every
    frame saved from a grid of zeros and ones is a grid of zeros and
    ones of the same shape, each frame is one step on from the frame
    before it, and the last frame is the grid the program is left
    with. *)
Theorem frames_consecutive H W (writer_ok : bool) (F : nat) (g0 shown : array2)
    (w : world) :
  shape H W g0 → binary g0 →
  make_and_save writer_ok F (start g0 shown) = Some w →
  (0 < F)%nat ∧ writer_ok = true ∧
  length (grabbed w) = F ∧
  Forall (λ f, shape H W f ∧ binary f) (grabbed w) ∧
  (∀ k a b, grabbed w !! k = Some a → grabbed w !! S k = Some b → step a = Some b) ∧
  last (grabbed w) = Some (grid w).
Proof.
  intros Hs Hb Hsave.
  destruct (make_and_save_Some writer_ok F _ w Hsave) as [HF ->].
  destruct (save_spec H W F g0 shown Hs Hb HF)
    as (w' & Hsave' & _ & _ & Hgrab & Hfr & Hend).
  assert (w' = w) as -> by congruence.
  assert (Hlt : ∀ k f, grabbed w !! k = Some f → (k < F)%nat).
  { intros k f Hf. rewrite <- Hgrab. by eapply lookup_lt_Some. }
  split; [exact HF|]. split; [reflexivity|]. split; [exact Hgrab|]. split; [|split].
  - apply Forall_lookup. intros k f Hf. rewrite (Hfr k (Hlt k f Hf)) in Hf.
    destruct (generation_total H W (k + 4) g0 Hs Hb) as (f' & Hf' & Hsf & Hbf).
    assert (f' = f) as -> by congruence. by split.
  - intros k a b Ha Hb'.
    rewrite (Hfr k (Hlt k a Ha)) in Ha. rewrite (Hfr (S k) (Hlt (S k) b Hb')) in Hb'.
    change (S k + 4)%nat with (S (k + 4)) in Hb'.
    rewrite generation_S_r, Ha in Hb'. exact Hb'.
  - rewrite last_lookup, Hgrab.
    rewrite (Hfr (pred F)) by lia.
    replace (pred F + 4)%nat with (F + 3)%nat by lia. exact Hend.
Qed.

Lemma frames_consecutive_witness :
  shape 5 5 glider5 ∧ binary glider5 ∧
  ∃ w, make_and_save true 2 (start glider5 (zeros 5 5)) = Some w ∧
       (0 < 2)%nat ∧ true = true ∧
       length (grabbed w) = 2%nat ∧
       Forall (λ f, shape 5 5 f ∧ binary f) (grabbed w) ∧
       (∀ k a b, grabbed w !! k = Some a → grabbed w !! S k = Some b → step a = Some b) ∧
       last (grabbed w) = Some (grid w).
Proof.
  assert (Hs : shape 5 5 glider5) by shape_tac.
  assert (Hb : binary glider5) by binary_tac.
  split; [exact Hs|]. split; [exact Hb|].
  destruct (make_and_save true 2 (start glider5 (zeros 5 5))) as [w|] eqn:Hsave.
  - exists w. split; [reflexivity|].
    exact (frames_consecutive 5 5 true 2 glider5 (zeros 5 5) w Hs Hb Hsave).
  - vm_compute in Hsave. discriminate Hsave.
Defined.

